(** * safe-units: the unit formatter, the exponent-type generators and the
    generic measure interface, embedded in Rocq.

    Numbers that serve as exponents are modelled as [Z]; JavaScript strings
    as [string] (sequences of code units, compared lexicographically);
    a template literal [`${n}`] on an integer as stdpp's [pretty]. *)

From Stdlib Require Import Ascii.
From stdpp Require Import base list strings pretty sorting gmap.

Local Open Scope string_scope.
Local Open Scope Z_scope.
Local Open Scope list_scope.
Local Open Scope stdpp_scope.

(** ** JavaScript primitives used by the sources *)

Module JS.

(** [Array.prototype.join] on an array of strings. *)
Fixpoint join (sep : string) (xs : list string) : string :=
  match xs with
  | [] => ""
  | [x] => x
  | x :: rest => x +:+ sep +:+ join sep rest
  end.

(** The insertion step of [Array.prototype.sort]: the pivot goes in front
    of the first element the comparator orders it strictly before. *)
Fixpoint insert_by {A} (cmp : A → A → Z) (x : A) (sorted : list A) : list A :=
  match sorted with
  | [] => [x]
  | y :: rest =>
      if bool_decide (cmp x y < 0) then x :: y :: rest
      else y :: insert_by cmp x rest
  end.

(** [Array.prototype.sort(cmp)].  ECMAScript fixes a stable sort and leaves
    the algorithm open; this is the insertion sort engines run on short
    arrays, elements taken left to right. *)
Definition sort {A} (cmp : A → A → Z) (xs : list A) : list A :=
  foldl (λ acc x, insert_by cmp x acc) [] xs.

(** An object with string keys: its own enumerable properties in the
    order [Object.keys] lists them. *)
Definition object (V : Type) : Type := list (string * V).

Definition keys {V} (o : object V) : list string := o.*1.

(** Property read [o[k]]; [None] is [undefined]. *)
Fixpoint get {V} (o : object (option V)) (k : string) : option V :=
  match o with
  | [] => None
  | (k', v) :: rest => if bool_decide (k' = k) then v else get rest k
  end.

(** Strict string comparison [a < b]. *)
Definition str_lt (a b : string) : bool := String.ltb a b.

(** [Array.prototype.indexOf] on an array of numbers; [-1] when absent. *)
Fixpoint indexOf (xs : list Z) (x : Z) : Z :=
  match xs with
  | [] => -1
  | y :: rest =>
      if bool_decide (y = x) then 0
      else let i := indexOf rest x in
           if bool_decide (i = -1) then -1 else 1 + i
  end.

(** [s.split(" ")]. *)
Fixpoint split_spaces (s : string) : list string :=
  match s with
  | "" => [""]
  | String c rest =>
      if Ascii.eqb c " "%char then "" :: split_spaces rest
      else match split_spaces rest with
           | w :: ws => String c w :: ws
           | [] => [String c ""]
           end
  end.

End JS.

(** ** The unit formatter *)

Definition Exponent : Type := Z.
Definition SymbolAndExponent : Type := string * Exponent.
Definition UnitWithSymbols : Type := JS.object (option SymbolAndExponent).

Definition isDimensionPresent (dimension : option SymbolAndExponent) : bool :=
  match dimension with
  | None => false
  | Some (_, e) => negb (e =? 0)
  end.

Definition orderDimensions (l r : SymbolAndExponent) : Z :=
  if JS.str_lt l.1 r.1 then -1 else 1.

(** The arrow function that [formatDimensions] maps over its argument. *)
Definition formatDimension (d : SymbolAndExponent) : string :=
  let exponentStr := if negb (d.2 =? 1) then "^" +:+ pretty d.2 else "" in
  d.1 +:+ exponentStr.

Definition formatDimensions (dimensions : list SymbolAndExponent) : string :=
  JS.join " * " (formatDimension <$> dimensions).

Definition negateDimension (d : SymbolAndExponent) : SymbolAndExponent :=
  (d.1, - d.2).

Definition maybeParenthesize (text : string) (parenthesize : bool) : string :=
  if parenthesize then "(" +:+ text +:+ ")" else text.

(** The array [dimensions] of [formatUnit] in two steps: the values of the
    object's keys with the present ones kept, which narrows their type, and
    that array sorted. *)
Definition presentDimensions (unit : UnitWithSymbols) : list SymbolAndExponent :=
  omap id (filter (λ d, isDimensionPresent d) (JS.get unit <$> JS.keys unit)).

Definition sortedDimensions (unit : UnitWithSymbols) : list SymbolAndExponent :=
  JS.sort orderDimensions (presentDimensions unit).

(** The arrays [positive] and [negative] of [formatUnit]. *)
Definition positiveOf (dimensions : list SymbolAndExponent) :=
  filter (λ d : SymbolAndExponent, 0 < d.2) dimensions.

Definition negativeOf (dimensions : list SymbolAndExponent) :=
  filter (λ d : SymbolAndExponent, d.2 < 0) dimensions.

Definition formatUnit (unit : UnitWithSymbols) : string :=
  let dimensions := sortedDimensions unit in
  if bool_decide (length dimensions = 0%nat) then ""
  else
    let positive := positiveOf dimensions in
    let negative := negativeOf dimensions in
    if bool_decide (length positive = 0%nat) then formatDimensions negative
    else
      let numerator := formatDimensions positive in
      if bool_decide (length negative = 0%nat) then numerator
      else
        let denominator := formatDimensions (negateDimension <$> negative) in
        numerator +:+ " / " +:+
          maybeParenthesize denominator (negb (bool_decide (length negative = 1%nat))).

(** A unit written [{m: 1, s: -2}] in the prose is the object whose entry for
    each dimension is the pair of its display symbol and its exponent. *)
Definition unitOf (entries : list (string * Z)) : UnitWithSymbols :=
  (λ e : string * Z, (e.1, Some (e.1, e.2))) <$> entries.

(** Dimensions ordered by their display symbols. *)
Definition symbol_le (l r : SymbolAndExponent) : Prop := String.le l.1 r.1.

(** ** The generators of the exponent operator types *)

(** Four spaces in front of a line, as the second generator defines it; the
    first generator imports the same helper from its common module. *)
Definition indent (line : string) : string := "    " +:+ line.

(** *** First generator: one named curried type per left exponent *)

Module OperatorTypes.

(** The fields of the options object that the generator reads. *)
Record OperatorCodeGenOptions := {
  specialCases : gmap Z string;
  compute : Z → Z → Z;
  curriedTypeNamePrefix : string;
}.

(** What the generator imports from its common module, which is not among
    the sources: the exponents, the file header and the helpers for names. *)
Class Common := {
  EXPONENTS : list Z;
  genFileHeader : list string;
  genImport : list string → string → string;
  genUncurriedTypeName : OperatorCodeGenOptions → string → string → string;
  genValueName : Z → string;
}.

Section Generator.
Context `{Common}.

Definition genImports : list string :=
  [genImport ["ArithmeticError"; "Exponent"] "./common"; ""].

Definition genCurriedTypeName (options : OperatorCodeGenOptions) (value : Z) : string :=
  curriedTypeNamePrefix options +:+ genValueName value.

Definition genErrorCase : string := indent ": ArithmeticError;".

(** One turn of the loop of [genUncurriedType] on the pair of [lines]
    and [first]. *)
Definition genUncurriedType_step (options : OperatorCodeGenOptions)
    (st : list string * bool) (left : Z) : list string * bool :=
  let operator := if st.2 then "=" else ":" in
  let prefix := indent (operator +:+ " L extends " +:+ pretty left +:+ " ?") in
  match specialCases options !! left with
  | Some special => (st.1 ++ [prefix +:+ " " +:+ special], false)
  | None =>
      (st.1 ++ [prefix +:+ " " +:+ genCurriedTypeName options left +:+ "<R>"], false)
  end.

Definition genUncurriedType (options : OperatorCodeGenOptions) : list string :=
  let lines :=
    ["export type " +:+
       genUncurriedTypeName options "L extends Exponent" "R extends Exponent"] in
  let st := foldl (genUncurriedType_step options) (lines, true) EXPONENTS in
  st.1 ++ [genErrorCase] ++ [""].

(** One turn of the loop of [genCurriedType]. *)
Definition genCurriedType_step (options : OperatorCodeGenOptions) (left : Z)
    (st : list string * bool) (right : Z) : list string * bool :=
  let result := compute options left right in
  if bool_decide (JS.indexOf EXPONENTS result ≠ -1) then
    let operator := if st.2 then "=" else ":" in
    (st.1 ++ [indent (operator +:+ " N extends " +:+ pretty right +:+ " ? " +:+
                        pretty result)], false)
  else st.

Definition genCurriedType (options : OperatorCodeGenOptions) (left : Z) : list string :=
  let lines :=
    ["export type " +:+ genCurriedTypeName options left +:+ "<N extends Exponent>"] in
  let st := foldl (genCurriedType_step options left) (lines, true) EXPONENTS in
  st.1 ++ [genErrorCase] ++ [""].

Definition genOperatorTypes_step (options : OperatorCodeGenOptions)
    (lines : list string) (left : Z) : list string :=
  match specialCases options !! left with
  | None => lines ++ genCurriedType options left
  | Some _ => lines
  end.

Definition genOperatorTypes (options : OperatorCodeGenOptions) : string :=
  let lines := genFileHeader ++ genImports ++ genUncurriedType options in
  JS.join (String "010"%char "")
    (foldl (genOperatorTypes_step options) lines EXPONENTS).


Definition curriedLine (options : OperatorCodeGenOptions) (left : Z)
    (first : bool) (right : Z) : string :=
  indent ((if first then "=" else ":") +:+ " N extends " +:+ pretty right +:+ " ? "
          +:+ pretty (compute options left right)).

Fixpoint curriedBranches (options : OperatorCodeGenOptions) (left : Z)
    (first : bool) (xs : list Z) : list string :=
  match xs with
  | [] => []
  | x :: rest =>
      if bool_decide (JS.indexOf EXPONENTS (compute options left x) ≠ -1)
      then curriedLine options left first x :: curriedBranches options left false rest
      else curriedBranches options left first rest
  end.

End Generator.

End OperatorTypes.

(** *** Second generator: the lookup inlined into the uncurried type *)

Module InlineOperatorTypes.

(** The fields of the operator specification that the generator reads. *)
Record IOperatorSpec := {
  specialCases : gmap Z string;
  compute : Z → Z → Z;
}.

(** What the generator imports from its common module, which is not among
    the sources; [isExponent] is the classifier of the exponent domain. *)
Class Common := {
  genFileHeader : list string;
  genImport : string → string → list string;
  genUncurriedTypeName : IOperatorSpec → string → string → string;
  getExponents : IOperatorSpec → list Z;
  isExponent : Z → IOperatorSpec → bool;
}.

Section Generator.
Context `{Common}.

Definition genCurriedType_step (spec : IOperatorSpec) (left : Z)
    (lines : list string) (right : Z) : list string :=
  let result := compute spec left right in
  if isExponent result spec then
    lines ++ [indent ("R extends " +:+ pretty right +:+ " ? " +:+ pretty result +:+ " :")]
  else lines.

Definition genCurriedType (spec : IOperatorSpec) (exponents : list Z) (left : Z)
    : list string :=
  let lines := foldl (genCurriedType_step spec left) ["("] exponents in
  indent <$> (indent <$> (lines ++ [indent "never"] ++ [")"])).

Definition genUncurriedType_step (spec : IOperatorSpec) (exponents : list Z)
    (st : list string * bool) (left : Z) : list string * bool :=
  let operator := if st.2 then "=" else ":" in
  let prefix := indent (operator +:+ " L extends " +:+ pretty left +:+ " ?") in
  match specialCases spec !! left with
  | Some special => (st.1 ++ [prefix +:+ " " +:+ special], false)
  | None => (st.1 ++ [prefix] ++ genCurriedType spec exponents left, false)
  end.

Definition genUncurriedType (spec : IOperatorSpec) (exponents : list Z) : list string :=
  let lines :=
    ["export type " +:+
       genUncurriedTypeName spec "L extends Exponent" "R extends Exponent"] in
  let st := foldl (genUncurriedType_step spec exponents) (lines, true) exponents in
  st.1 ++ [indent ": never;"] ++ [""].

Definition genOperatorTypes (spec : IOperatorSpec) : string :=
  JS.join (String "010"%char "")
    (genFileHeader ++ genImport "Exponent" "./exponent" ++
     genUncurriedType spec (getExponents spec)).

(** The loop of [genCurriedType] in closed form. *)
Definition inlineLine (spec : IOperatorSpec) (left right : Z) : string :=
  indent ("R extends " +:+ pretty right +:+ " ? " +:+
          pretty (compute spec left right) +:+ " :").

Definition inlineBranches (spec : IOperatorSpec) (left : Z) (xs : list Z)
    : list string :=
  inlineLine spec left <$> filter (λ x, isExponent (compute spec left x) spec) xs.

End Generator.

End InlineOperatorTypes.

(** *** Concrete runs *)

(** A common module for concrete runs: exponents from -2 to 2 and
    placeholder names. *)
Definition sampleExponents : list Z := [-2; -1; 0; 1; 2].

Definition sampleCommon : OperatorTypes.Common := {|
  OperatorTypes.EXPONENTS := sampleExponents;
  OperatorTypes.genFileHeader := ["// generated"];
  OperatorTypes.genImport := λ names path,
    "import { " +:+ JS.join ", " names +:+ " } from " +:+ path +:+ ";";
  OperatorTypes.genUncurriedTypeName := λ _ l r, "Add<" +:+ l +:+ ", " +:+ r +:+ ">";
  OperatorTypes.genValueName := λ v,
    if v <? 0 then "Negative" +:+ pretty (- v) else "Positive" +:+ pretty v;
|}.

Definition sampleOptions : OperatorTypes.OperatorCodeGenOptions := {|
  OperatorTypes.specialCases := {[ 0 := "R" ]};
  OperatorTypes.compute := Z.add;
  OperatorTypes.curriedTypeNamePrefix := "Add";
|}.

Definition sampleInlineCommon : InlineOperatorTypes.Common := {|
  InlineOperatorTypes.genFileHeader := ["// generated"];
  InlineOperatorTypes.genImport := λ name path,
    ["import { " +:+ name +:+ " } from " +:+ path +:+ ";"; ""];
  InlineOperatorTypes.genUncurriedTypeName := λ _ l r,
    "Add<" +:+ l +:+ ", " +:+ r +:+ ">";
  InlineOperatorTypes.getExponents := λ _, sampleExponents;
  InlineOperatorTypes.isExponent := λ e _, bool_decide (e ∈ sampleExponents);
|}.

Definition sampleSpec : InlineOperatorTypes.IOperatorSpec := {|
  InlineOperatorTypes.specialCases := {[ 0 := "R" ]};
  InlineOperatorTypes.compute := Z.add;
|}.

(** ** Reading a generated conditional type *)

(** The generated text is a chain of alternatives, one per line.  A line is
    read as its words; the chain applied to a numeric literal gives the result
    of the first alternative whose test is that literal, or the result of the
    closing alternative. *)
Module TS.

Definition words (line : string) : list string :=
  filter (λ w : string, w ≠ "") (JS.split_spaces line).

(** The text without the semicolon that ends a type definition. *)
Fixpoint drop_semicolon (s : string) : string :=
  match s with
  | "" => ""
  | String c rest =>
      if Ascii.eqb c ";"%char then
        match rest with "" => "" | _ => String c (drop_semicolon rest) end
      else String c (drop_semicolon rest)
  end.

Inductive alternative :=
  | Case (test result : string)
  | Otherwise (result : string).

(** A line of a chain whose operators lead: with [op] the equals sign, the
    first alternative [= V extends t ? r]; with [op] the colon, a later
    alternative [: V extends t ? r] or the closing [: r;]. *)
Definition parseLeading (op var line : string) : option alternative :=
  match words line with
  | [o; v; ext; t; q; r] =>
      if bool_decide (o = op ∧ v = var ∧ ext = "extends" ∧ q = "?")
      then Some (Case t r) else None
  | [o; r] =>
      if bool_decide (op = ":" ∧ o = ":") then Some (Otherwise (drop_semicolon r))
      else None
  | _ => None
  end.

(** [V extends t ? r :] and the closing [r]. *)
Definition parseTrailing (var line : string) : option alternative :=
  match words line with
  | [v; ext; t; q; r; c] =>
      if bool_decide (v = var ∧ ext = "extends" ∧ q = "?" ∧ c = ":")
      then Some (Case t r) else None
  | [r] => Some (Otherwise r)
  | _ => None
  end.

Fixpoint evalChain (parse : string → option alternative) (literal : string)
    (lines : list string) : option string :=
  match lines with
  | [] => None
  | line :: rest =>
      match parse line with
      | Some (Case t r) =>
          if bool_decide (t = literal) then Some r else evalChain parse literal rest
      | Some (Otherwise r) => Some r
      | None => None
      end
  end.

(** A named curried type of the first generator, applied to the literal
    [n].  The line with the name must be followed by an alternative that
    carries the equals sign; the lines after it carry colons.  Text without
    such a first alternative is not a type and has no reading. *)
Definition applyCurried (lines : list string) (n : Z) : option string :=
  match lines with
  | _ :: first :: rest =>
      match parseLeading "=" "N" first with
      | Some (Case t r) =>
          if bool_decide (t = pretty n) then Some r
          else evalChain (parseLeading ":" "N") (pretty n) rest
      | _ => None
      end
  | _ => None
  end.

(** A parenthesised lookup of the second generator with [R] the literal
    [n]: the chain follows the line with the parenthesis. *)
Definition applyInline (lines : list string) (n : Z) : option string :=
  match lines with
  | [] => None
  | _ :: chain => evalChain (parseTrailing "R") (pretty n) chain
  end.

End TS.

(** A word: not empty and without a space. *)
Fixpoint no_space (s : string) : Prop :=
  match s with
  | "" => True
  | String c rest => c ≠ " "%char ∧ no_space rest
  end.

Definition is_word (s : string) : Prop := s ≠ "" ∧ no_space s.

(** ** The generic measure *)

Module Measure.

(** The numeric operations a measure is generic over. *)
Class INumericOperations (N : Type) := {
  one : N;
  neg : N → N;
  add : N → N → N;
  sub : N → N → N;
  mult : N → N → N;
  div : N → N → N;
  pow : N → Exponent → N;
  compare : N → N → Z;
  format : N → string;
}.

(** Modelled from the spec: the bounds [d_min] and [d_max] of the exponent
    domain, which the declarations at hand import. *)
Class ExponentDomain := { d_min : Z; d_max : Z }.

(** Modelled from the spec: the kinds of error of the measure layer. *)
Inductive MeasureError :=
  | ArithmeticError
  | UnitMismatchError
  | MixedNumericBackendError.

(** The read-only fields of [IGenericMeasure]; [None] is a symbol that is
    [undefined]. *)
Record GenericMeasure (N : Type) := mkMeasure {
  value : N;
  unit : UnitWithSymbols;
  symbol : option string;
}.
Arguments mkMeasure {N}.
Arguments value {N}.
Arguments unit {N}.
Arguments symbol {N}.

Section Operations.
Context {N : Type} `{INumericOperations N} `{ExponentDomain}.

(** Modelled from the spec: the classifier of the exponent domain. *)
Definition isExponent (e : Z) : bool := (d_min <=? e) && (e <=? d_max).

(** Modelled from the spec: [scaleExponent], the product when it is in
    the domain and an arithmetic error otherwise. *)
Definition scaleExponent (a k : Z) : MeasureError + Exponent :=
  if isExponent (a * k) then inr (a * k) else inl ArithmeticError.

(** Modelled from the spec: [exponentiateUnit], every dimension of the
    unit scaled, the whole operation failing when one dimension fails and
    dimensions with result zero left out. *)
Fixpoint exponentiateUnit (u : UnitWithSymbols) (k : Z) : MeasureError + UnitWithSymbols :=
  match u with
  | [] => inr []
  | (_, None) :: rest => exponentiateUnit rest k
  | (d, Some (s, e)) :: rest =>
      match scaleExponent e k with
      | inl err => inl err
      | inr e' =>
          match exponentiateUnit rest k with
          | inl err => inl err
          | inr rest' => inr (if e' =? 0 then rest' else (d, Some (s, e')) :: rest')
          end
      end
  end.

(** Modelled from the spec: the exponents allowed for a unit, those that
    keep the result of every dimension in the domain. *)
Definition allowedExponent (u : UnitWithSymbols) (k : Z) : bool :=
  forallb (λ d : SymbolAndExponent, isExponent (d.2 * k)) (presentDimensions u).

(** Modelled from the spec: the exponent a unit gives a dimension, zero
    when the dimension is absent. *)
Definition exponentOf (u : UnitWithSymbols) (d : string) : Z :=
  match JS.get u d with Some (_, e) => e | None => 0 end.

(** Modelled from the spec: [isCompatible], equality of the units once
    zero exponents are disregarded. *)
Definition isCompatible (u v : UnitWithSymbols) : bool :=
  forallb (λ d, exponentOf u d =? exponentOf v d) (JS.keys u ++ JS.keys v).

(** Modelled from the spec: [toThe], whose implementation is not among
    the sources; the unit by [exponentiateUnit], the value by [pow]. *)
Definition toThe (m : GenericMeasure N) (exponent : Z) : MeasureError + GenericMeasure N :=
  match exponentiateUnit (unit m) exponent with
  | inl err => inl err
  | inr u => inr (mkMeasure (pow (value m) exponent) u None)
  end.

(** Modelled from the spec: [squared], whose implementation is not among
    the sources.  The declared property type is conditional; [None]
    stands for the branch [never], where the operation is not offered. *)
Definition squared (m : GenericMeasure N) : option (MeasureError + GenericMeasure N) :=
  if allowedExponent (unit m) 2 then Some (toThe m 2) else None.

(** Modelled from the spec: [cubed], as [squared] with exponent 3. *)
Definition cubed (m : GenericMeasure N) : option (MeasureError + GenericMeasure N) :=
  if allowedExponent (unit m) 3 then Some (toThe m 3) else None.

(** Modelled from the spec: [toString], whose implementation is not among
    the sources; the formatted value, then a space and the formatted unit
    unless that is empty. *)
Definition toString (m : GenericMeasure N) : string :=
  let formattedValue := format (value m) in
  let formattedUnit := formatUnit (unit m) in
  if bool_decide (formattedUnit = "") then formattedValue
  else formattedValue +:+ " " +:+ formattedUnit.

(** Modelled from the spec: [in], whose implementation is not among the
    sources; after the units are confirmed equal, [toString] when the
    given unit has no symbol, otherwise the formatted quotient followed by
    the symbol.  The spec leaves open what stands between the two;
    [separator] is that text. *)
Definition in_ (separator : string) (m u : GenericMeasure N) : MeasureError + string :=
  if negb (isCompatible (unit m) (unit u)) then inl UnitMismatchError
  else
    match symbol u with
    | None => inr (toString m)
    | Some s => inr (format (div (value m) (value u)) +:+ separator +:+ s)
    end.

End Operations.

(** Integers as a numeric type, for concrete runs. *)
Definition numericZ : INumericOperations Z := {|
  one := 1;
  neg := Z.opp;
  add := Z.add;
  sub := Z.sub;
  mult := Z.mul;
  div := Z.div;
  pow := Z.pow;
  compare := λ l r, l - r;
  format := pretty;
|}.

Definition sampleDomain : ExponentDomain := {| d_min := -4; d_max := 4 |}.

End Measure.

(** ** Auxiliary notions *)

(** The unit with the exponent of every dimension negated. *)
Definition negateUnit (unit : UnitWithSymbols) : UnitWithSymbols :=
  (λ e : string * option SymbolAndExponent, (e.1, negateDimension <$> e.2)) <$> unit.

(** The lines that one turn of the loop of the second [genUncurriedType]
    adds for a left exponent. *)
Definition inlineBlock `{!InlineOperatorTypes.Common}
    (spec : InlineOperatorTypes.IOperatorSpec) (exponents : list Z)
    (first : bool) (left : Z) : list string :=
  let prefix :=
    indent ((if first then "=" else ":") +:+ " L extends " +:+ pretty left +:+ " ?") in
  match InlineOperatorTypes.specialCases spec !! left with
  | Some special => [prefix +:+ " " +:+ special]
  | None => prefix :: InlineOperatorTypes.genCurriedType spec exponents left
  end.

(** Text made of decimal digits and minus signs only. *)
Fixpoint numeral (s : string) : Prop :=
  match s with
  | "" => True
  | String c rest => (is_Some (Ascii.is_nat c) ∨ c = "-"%char) ∧ numeral rest
  end.

(** * Properties *)

(** ** Sorting *)

Section SortFacts.
Context {A : Type} (cmp : A → A → Z).

Lemma insert_by_Permutation (x : A) (l : list A) :
  JS.insert_by cmp x l ≡ₚ x :: l.
Proof.
  induction l as [|y l IH]; simpl; [done|].
  case_bool_decide; [done|].
  rewrite IH. apply Permutation_swap.
Qed.

Lemma sort_foldl_Permutation (xs acc : list A) :
  foldl (λ acc x, JS.insert_by cmp x acc) acc xs ≡ₚ acc ++ xs.
Proof.
  revert acc. induction xs as [|x xs IH]; intros acc; simpl.
  - by rewrite app_nil_r.
  - rewrite IH, insert_by_Permutation. simpl. apply Permutation_middle.
Qed.

Lemma sort_Permutation (xs : list A) : JS.sort cmp xs ≡ₚ xs.
Proof. unfold JS.sort. by rewrite sort_foldl_Permutation. Qed.

(** The sort orders by any transitive relation that the comparator decides:
    a negative answer means related, any other answer means related the
    other way round. *)
Context (R : relation A) `{!Transitive R}.
Hypothesis cmp_neg : ∀ x y, cmp x y < 0 → R x y.
Hypothesis cmp_nonneg : ∀ x y, ¬ cmp x y < 0 → R y x.

Lemma insert_by_StronglySorted (x : A) (l : list A) :
  StronglySorted R l → StronglySorted R (JS.insert_by cmp x l).
Proof.
  induction 1 as [|y l Hl IH Hy]; simpl.
  - repeat constructor.
  - case_bool_decide as Hc.
    + apply cmp_neg in Hc. constructor; [by constructor|].
      constructor; [done|]. eapply Forall_impl; [exact Hy|].
      intros z ?. by trans y.
    + apply cmp_nonneg in Hc. constructor; [done|].
      rewrite insert_by_Permutation. by constructor.
Qed.

Lemma sort_foldl_StronglySorted (xs acc : list A) :
  StronglySorted R acc →
  StronglySorted R (foldl (λ acc x, JS.insert_by cmp x acc) acc xs).
Proof.
  revert acc. induction xs as [|x xs IH]; intros acc Hacc; simpl; [done|].
  by apply IH, insert_by_StronglySorted.
Qed.

Lemma sort_StronglySorted (xs : list A) : StronglySorted R (JS.sort cmp xs).
Proof. apply sort_foldl_StronglySorted. constructor. Qed.

End SortFacts.

Global Instance symbol_le_trans : Transitive symbol_le.
Proof. intros x y z. unfold symbol_le. intros. by etrans. Qed.

Lemma orderDimensions_neg (l r : SymbolAndExponent) :
  orderDimensions l r < 0 → symbol_le l r.
Proof.
  unfold orderDimensions, JS.str_lt, String.ltb, symbol_le, String.le, String.leb.
  destruct (String.compare l.1 r.1); simpl; intros; (done || lia).
Qed.

Lemma orderDimensions_nonneg (l r : SymbolAndExponent) :
  ¬ orderDimensions l r < 0 → symbol_le r l.
Proof.
  unfold orderDimensions, JS.str_lt, String.ltb, symbol_le, String.le, String.leb.
  rewrite (String.compare_antisym l.1 r.1).
  destruct (String.compare r.1 l.1); simpl; intros; (done || lia).
Qed.

Lemma sortedDimensions_Permutation (u : UnitWithSymbols) :
  sortedDimensions u ≡ₚ presentDimensions u.
Proof. apply sort_Permutation. Qed.

Lemma sortedDimensions_sorted (u : UnitWithSymbols) :
  StronglySorted symbol_le (sortedDimensions u).
Proof.
  apply (sort_StronglySorted _ symbol_le);
    auto using orderDimensions_neg, orderDimensions_nonneg.
Qed.

Lemma StronglySorted_filter {A} (R : relation A) (P : A → Prop)
    `{!∀ x, Decision (P x)} (l : list A) :
  StronglySorted R l → StronglySorted R (filter P l).
Proof.
  induction 1 as [|x l Hl IH Hx]; [constructor|].
  rewrite filter_cons. case_decide; [|done].
  constructor; [done|].
  rewrite Forall_forall in Hx |- *. intros y [_ ?]%list_elem_of_filter. auto.
Qed.

(** ** The formatter *)

Lemma get_Some_key (u : UnitWithSymbols) (d : string) (x : SymbolAndExponent) :
  JS.get u d = Some x → d ∈ JS.keys u.
Proof.
  induction u as [|[k v] u IH]; simpl; [done|].
  case_bool_decide; subst; intros; [left|right; auto].
Qed.

Lemma presentDimensions_elem (u : UnitWithSymbols) (x : SymbolAndExponent) :
  x ∈ presentDimensions u ↔ x.2 ≠ 0 ∧ ∃ d, JS.get u d = Some x.
Proof.
  unfold presentDimensions. rewrite list_elem_of_omap. split.
  - intros (o & [Hp Ho]%list_elem_of_filter & Hx). simpl in Hx. subst o.
    apply list_elem_of_fmap in Ho as (d & Hd & _).
    destruct x as [s e]; simpl in *.
    split; [|by eauto]. destruct (Z.eqb_spec e 0); [done|lia].
  - intros (Hne & d & Hd). exists (Some x). split; [|done].
    apply list_elem_of_filter. split.
    + destruct x as [s e]; simpl in *. by destruct (Z.eqb_spec e 0).
    + rewrite <- Hd. apply list_elem_of_fmap_2. by eapply get_Some_key.
Qed.

Lemma sortedDimensions_elem (u : UnitWithSymbols) (x : SymbolAndExponent) :
  x ∈ sortedDimensions u ↔ x.2 ≠ 0 ∧ ∃ d, JS.get u d = Some x.
Proof. by rewrite sortedDimensions_Permutation, presentDimensions_elem. Qed.

Lemma length_zero_nil {A} (l : list A) : length l = 0%nat ↔ l = [].
Proof. by destruct l. Qed.

(** The branches of [formatUnit], by the shape of the two groups. *)
Lemma formatUnit_by_groups (u : UnitWithSymbols) :
  formatUnit u =
    match positiveOf (sortedDimensions u), negativeOf (sortedDimensions u) with
    | [], negative => formatDimensions negative
    | positive, [] => formatDimensions positive
    | positive, negative =>
        formatDimensions positive +:+ " / " +:+
          maybeParenthesize (formatDimensions (negateDimension <$> negative))
            (negb (bool_decide (length negative = 1%nat)))
    end.
Proof.
  unfold formatUnit. case_bool_decide as Hd.
  - apply length_zero_nil in Hd. by rewrite Hd.
  - destruct (positiveOf _) as [|p ps]; simpl; [done|].
    by destruct (negativeOf _) as [|n ns].
Qed.

(** C2: the four golden strings: [{m: 1}] gives "m", [{m: 1, s: -2}] gives
    "m / s^2", [{kg: 1, m: 1, s: -2}] gives "kg * m / s^2" and the empty unit
    gives the empty string. *)
Theorem formatUnit_golden :
  formatUnit (unitOf [("m", 1)]) = "m" ∧
  formatUnit (unitOf [("m", 1); ("s", -2)]) = "m / s^2" ∧
  formatUnit (unitOf [("kg", 1); ("m", 1); ("s", -2)]) = "kg * m / s^2" ∧
  formatUnit (unitOf []) = "".
Proof. repeat split; vm_compute; reflexivity. Qed.

(** C3: with a positive and a negative dimension the unit is rendered as
    numerator, [" / "], denominator; the denominator lists the negative
    dimensions with their exponents negated, all of them positive, and is in
    parentheses exactly when it has more than one dimension. *)
Theorem formatUnit_fraction (u : UnitWithSymbols) :
  (∃ d s e, JS.get u d = Some (s, e) ∧ 0 < e) →
  (∃ d s e, JS.get u d = Some (s, e) ∧ e < 0) →
  let numerator := positiveOf (sortedDimensions u) in
  let denominator :=
    (λ d : SymbolAndExponent, (d.1, - d.2)) <$> negativeOf (sortedDimensions u) in
  Forall (λ d : SymbolAndExponent, 0 < d.2) denominator ∧
  formatUnit u =
    formatDimensions numerator +:+ " / " +:+
      (if bool_decide (1 < length denominator)%nat
       then "(" +:+ formatDimensions denominator +:+ ")"
       else formatDimensions denominator).
Proof.
  intros (dp & sp & ep & Hp & Hep) (dn & sn & en & Hn & Hen). simpl. split.
  - apply Forall_fmap, Forall_forall. intros x [? _]%list_elem_of_filter. simpl. lia.
  - rewrite formatUnit_by_groups.
    assert ((sp, ep) ∈ positiveOf (sortedDimensions u)) as Hpos.
    { apply list_elem_of_filter. split; [done|].
      apply sortedDimensions_elem. simpl. split; [lia|eauto]. }
    assert ((sn, en) ∈ negativeOf (sortedDimensions u)) as Hneg.
    { apply list_elem_of_filter. split; [done|].
      apply sortedDimensions_elem. simpl. split; [lia|eauto]. }
    destruct (positiveOf _) as [|p ps]; [by apply elem_of_nil in Hpos|].
    destruct (negativeOf _) as [|n ns]; [by apply elem_of_nil in Hneg|].
    unfold maybeParenthesize, negateDimension. rewrite length_fmap.
    destruct ns; simpl; done.
Qed.

Lemma formatUnit_fraction_witness :
  formatUnit (unitOf [("m", 1); ("s", -2)]) = "m / s^2".
Proof.
  destruct (formatUnit_fraction (unitOf [("m", 1); ("s", -2)])) as [_ ->].
  - exists "m", "m", 1. split; [reflexivity|lia].
  - exists "s", "s", (-2). split; [reflexivity|lia].
  - reflexivity.
Defined.

Lemma sortedDimensions_nonzero (u : UnitWithSymbols) :
  Forall (λ d : SymbolAndExponent, d.2 ≠ 0) (sortedDimensions u).
Proof. apply Forall_forall. by intros x [? _]%sortedDimensions_elem. Qed.

Lemma groups_Permutation (l : list SymbolAndExponent) :
  Forall (λ d : SymbolAndExponent, d.2 ≠ 0) l → positiveOf l ++ negativeOf l ≡ₚ l.
Proof.
  unfold positiveOf, negativeOf.
  induction 1 as [|x l Hx _ IH]; [done|].
  rewrite !filter_cons. repeat case_decide; try lia.
  - simpl. by rewrite IH.
  - by rewrite <- Permutation_middle, IH.
Qed.

Lemma negativeOf_all (l : list SymbolAndExponent) :
  Forall (λ d : SymbolAndExponent, d.2 < 0) l → negativeOf l = l ∧ positiveOf l = [].
Proof.
  unfold positiveOf, negativeOf.
  induction 1 as [|x l Hx _ [IH1 IH2]]; [done|].
  rewrite !filter_cons. repeat case_decide; try lia. by rewrite IH1, IH2.
Qed.

(** C4: when no dimension has a positive exponent, the non-zero dimensions,
    all negative, are rendered as they are: each symbol with ["^"] and its own
    negative exponent, joined by [" * "], with no numerator in front. *)
Theorem formatUnit_all_negative (u : UnitWithSymbols) :
  (∀ d s e, JS.get u d = Some (s, e) → e ≤ 0) →
  Forall (λ d : SymbolAndExponent, d.2 < 0) (sortedDimensions u) ∧
  formatUnit u =
    JS.join " * "
      ((λ d : SymbolAndExponent, d.1 +:+ "^" +:+ pretty d.2) <$> sortedDimensions u).
Proof.
  intros Hneg.
  assert (Forall (λ d : SymbolAndExponent, d.2 < 0) (sortedDimensions u)) as Hall.
  { apply Forall_forall. intros [s e] [Hne [d Hd]]%sortedDimensions_elem.
    apply Hneg in Hd. simpl in *. lia. }
  split; [done|].
  rewrite formatUnit_by_groups.
  destruct (negativeOf_all _ Hall) as [-> ->].
  unfold formatDimensions. f_equal.
  apply Forall_fmap_ext_1. eapply Forall_impl; [exact Hall|].
  intros [s e] ?. unfold formatDimension. simpl in *.
  destruct (Z.eqb_spec e 1); [lia|done].
Qed.

Lemma formatUnit_all_negative_witness :
  formatUnit (unitOf [("s", -2)]) = "s^-2".
Proof.
  destruct (formatUnit_all_negative (unitOf [("s", -2)])) as [_ ->].
  - intros d s e. simpl. case_bool_decide; [|done]. intros [= <- <-]. lia.
  - reflexivity.
Defined.

(** C5: the non-zero dimensions are split into the positive and the negative
    group; in each group the symbols ascend lexicographically; a group is
    rendered as its dimensions joined by [" * "], a symbol followed by ["^"]
    and the exponent exactly when the exponent rendered is not 1; and the
    result of [formatUnit] is put together from the groups so rendered. *)
Theorem formatUnit_groups (u : UnitWithSymbols) :
  let positive := positiveOf (sortedDimensions u) in
  let negative := negativeOf (sortedDimensions u) in
  let render (d : SymbolAndExponent) :=
    d.1 +:+ (if bool_decide (d.2 = 1) then "" else "^" +:+ pretty d.2) in
  let group (g : list SymbolAndExponent) := JS.join " * " (render <$> g) in
  let negated := (λ d : SymbolAndExponent, (d.1, - d.2)) <$> negative in
  (∀ x, x ∈ presentDimensions u ↔ x.2 ≠ 0 ∧ ∃ d, JS.get u d = Some x) ∧
  positive ++ negative ≡ₚ presentDimensions u ∧
  Forall (λ d : SymbolAndExponent, 0 < d.2) positive ∧
  Forall (λ d : SymbolAndExponent, d.2 < 0) negative ∧
  StronglySorted String.le positive.*1 ∧
  StronglySorted String.le negative.*1 ∧
  negated.*1 = negative.*1 ∧
  formatUnit u =
    match positive, negative with
    | [], _ => group negative
    | _, [] => group positive
    | _, _ =>
        group positive +:+ " / " +:+
          (if bool_decide (1 < length negated)%nat
           then "(" +:+ group negated +:+ ")" else group negated)
    end.
Proof.
  simpl.
  assert (∀ g, formatDimensions g =
    JS.join " * " ((λ d : SymbolAndExponent,
      d.1 +:+ (if bool_decide (d.2 = 1) then "" else "^" +:+ pretty d.2)) <$> g)) as Hfd.
  { intros g. unfold formatDimensions. f_equal. apply list_fmap_ext.
    intros _ [s e] _. unfold formatDimension. simpl.
    case_bool_decide; destruct (Z.eqb_spec e 1); (done || lia). }
  split_and!.
  - apply presentDimensions_elem.
  - rewrite groups_Permutation by apply sortedDimensions_nonzero.
    apply sortedDimensions_Permutation.
  - apply Forall_forall. by intros x [? _]%list_elem_of_filter.
  - apply Forall_forall. by intros x [? _]%list_elem_of_filter.
  - apply (StronglySorted_fmap _ symbol_le); [done|].
    apply StronglySorted_filter, sortedDimensions_sorted.
  - apply (StronglySorted_fmap _ symbol_le); [done|].
    apply StronglySorted_filter, sortedDimensions_sorted.
  - rewrite <- list_fmap_compose. by apply list_fmap_ext.
  - rewrite formatUnit_by_groups, <- !Hfd.
    destruct (positiveOf _) as [|p ps]; [done|].
    destruct (negativeOf _) as [|n ns]; [done|].
    unfold maybeParenthesize, negateDimension. rewrite length_fmap.
    destruct ns; simpl; done.
Qed.

(** On an object, whose keys are pairwise distinct, reading every key gives
    the values in order. *)
Lemma get_keys_values (u : UnitWithSymbols) :
  NoDup (JS.keys u) → JS.get u <$> JS.keys u = u.*2.
Proof.
  unfold JS.keys. induction u as [|[k v] u IH]; [done|].
  rewrite !fmap_cons. simpl. intros [Hk Hu]%NoDup_cons.
  rewrite bool_decide_eq_true_2 by done. f_equal.
  rewrite <- IH by done. apply list_fmap_ext. intros i d Hd.
  apply list_elem_of_lookup_2 in Hd.
  rewrite bool_decide_eq_false_2; [done|]. by intros ->.
Qed.

Lemma presentDimensions_values (u : UnitWithSymbols) :
  NoDup (JS.keys u) →
  presentDimensions u = omap id (filter (λ d, isDimensionPresent d) u.*2).
Proof. intros Hu. unfold presentDimensions. by rewrite get_keys_values. Qed.

Lemma keys_insert_Permutation {V} (u1 u2 : JS.object V) (k : string) (v : V) :
  JS.keys (u1 ++ (k, v) :: u2) ≡ₚ k :: JS.keys (u1 ++ u2).
Proof.
  unfold JS.keys. rewrite !fmap_app, fmap_cons. simpl.
  by rewrite Permutation_middle.
Qed.

Lemma presentDimensions_skip (u1 u2 : UnitWithSymbols) (k : string)
    (v : option SymbolAndExponent) :
  NoDup (JS.keys (u1 ++ u2)) → k ∉ JS.keys (u1 ++ u2) →
  isDimensionPresent v = false →
  presentDimensions (u1 ++ (k, v) :: u2) = presentDimensions (u1 ++ u2).
Proof.
  intros Hnd Hk Hv.
  rewrite !presentDimensions_values; [|done|].
  - rewrite !fmap_app, fmap_cons, !filter_app, filter_cons. simpl.
    rewrite decide_False; [done|]. rewrite Hv. by intros [].
  - rewrite keys_insert_Permutation. by constructor.
Qed.

Lemma formatUnit_present (u u' : UnitWithSymbols) :
  presentDimensions u = presentDimensions u' → formatUnit u = formatUnit u'.
Proof. intros Hp. unfold formatUnit, sortedDimensions. by rewrite Hp. Qed.

(** C9: an entry that is [undefined] and an entry whose exponent is 0 are
    both treated as if the dimension were not there: with or without such an
    entry the object is formatted the same. *)
Theorem formatUnit_ignores_absent (u1 u2 : UnitWithSymbols) (k : string) :
  NoDup (JS.keys (u1 ++ u2)) → k ∉ JS.keys (u1 ++ u2) →
  formatUnit (u1 ++ (k, None) :: u2) = formatUnit (u1 ++ u2) ∧
  ∀ s, formatUnit (u1 ++ (k, Some (s, 0)) :: u2) = formatUnit (u1 ++ u2).
Proof.
  intros Hnd Hk.
  split; [|intros s]; by apply formatUnit_present, presentDimensions_skip.
Qed.

Lemma formatUnit_ignores_absent_witness :
  formatUnit [("m", Some ("m", 1)); ("kg", None); ("s", Some ("s", -2))] = "m / s^2" ∧
  formatUnit [("m", Some ("m", 1)); ("kg", Some ("kg", 0)); ("s", Some ("s", -2))]
    = "m / s^2".
Proof.
  destruct (formatUnit_ignores_absent
              [("m", Some ("m", 1))] [("s", Some ("s", -2))] "kg") as [H1 H2].
  - apply (bool_decide_unpack _). vm_compute. exact I.
  - apply (bool_decide_unpack _). vm_compute. exact I.
  - split; [exact H1 | exact (H2 "kg")].
Defined.

(** C10: when the dimensions present carry pairwise distinct symbols, the
    order in which the object lists its dimensions does not matter. *)
Theorem formatUnit_order_invariant (u u' : UnitWithSymbols) :
  NoDup (JS.keys u) → u ≡ₚ u' → NoDup (presentDimensions u).*1 →
  formatUnit u = formatUnit u'.
Proof.
  intros Hnd Hperm Hsym.
  assert (NoDup (JS.keys u')) as Hnd'.
  { unfold JS.keys in *. by rewrite <- Hperm. }
  assert (presentDimensions u ≡ₚ presentDimensions u') as Hp.
  { rewrite !presentDimensions_values by done. by rewrite Hperm. }
  unfold formatUnit.
  assert (sortedDimensions u = sortedDimensions u') as ->; [|done].
  apply (StronglySorted_unique_strong symbol_le);
    [|apply sortedDimensions_sorted..|].
  - intros x1 x2 H1 H2 H12 H21.
    rewrite sortedDimensions_Permutation in H1.
    rewrite sortedDimensions_Permutation, <- Hp in H2.
    assert (x1.1 = x2.1) as Heq by (by apply (anti_symm String.le)).
    apply list_elem_of_lookup in H1 as [i1 Hi1], H2 as [i2 Hi2].
    assert (i1 = i2) as <-.
    { eapply NoDup_lookup; [exact Hsym|..]; rewrite list_lookup_fmap.
      - exact (f_equal (fmap fst) Hi1).
      - rewrite Heq. exact (f_equal (fmap fst) Hi2). }
    congruence.
  - by rewrite !sortedDimensions_Permutation.
Qed.

Lemma formatUnit_order_invariant_witness :
  formatUnit (unitOf [("s", -2); ("m", 1); ("kg", 1)]) =
  formatUnit (unitOf [("kg", 1); ("s", -2); ("m", 1)]).
Proof.
  apply formatUnit_order_invariant.
  - apply (bool_decide_unpack _). vm_compute. exact I.
  - symmetry. apply (Permutation_cons_append [_; _]).
  - apply (bool_decide_unpack _). vm_compute. exact I.
Defined.

(** ** Words *)


Lemma split_spaces_word (a : string) : no_space a → JS.split_spaces a = [a].
Proof.
  induction a as [|c a IH]; simpl; [done|]. intros [Hc Ha].
  apply Ascii.eqb_neq in Hc. rewrite Hc, IH by done. done.
Qed.

Lemma split_spaces_app (a rest : string) :
  no_space a →
  JS.split_spaces (a +:+ String " " rest) = a :: JS.split_spaces rest.
Proof.
  induction a as [|c a IH]; simpl; [done|]. intros [Hc Ha].
  apply Ascii.eqb_neq in Hc. rewrite Hc. by rewrite (IH Ha).
Qed.

Lemma words_word (a : string) : is_word a → TS.words a = [a].
Proof.
  intros [Hne Ha]. unfold TS.words. rewrite split_spaces_word by done.
  by rewrite filter_cons_True.
Qed.

Lemma words_app (a rest : string) :
  is_word a → TS.words (a +:+ String " " rest) = a :: TS.words rest.
Proof.
  intros [Hne Ha]. unfold TS.words. rewrite split_spaces_app by done.
  by rewrite filter_cons_True.
Qed.

Lemma words_join (ws : list string) :
  Forall is_word ws → TS.words (JS.join " " ws) = ws.
Proof.
  induction 1 as [|w ws Hw Hws IH]; [done|].
  destruct ws as [|w' ws].
  - by apply words_word.
  - change (JS.join " " (w :: w' :: ws)) with
      (w +:+ String " " (JS.join " " (w' :: ws))).
    by rewrite words_app, IH.
Qed.

Lemma words_space (s : string) : TS.words (String " " s) = TS.words s.
Proof. unfold TS.words. simpl. by rewrite filter_cons_False by naive_solver. Qed.

Lemma words_indent (s : string) : TS.words (indent s) = TS.words s.
Proof. unfold indent. cbv [String.append]. by rewrite !words_space. Qed.

(** The decimal rendering of an integer is a word. *)
Lemma pretty_N_char_no_space (x : N) : pretty_N_char x ≠ " "%char.
Proof. unfold pretty_N_char. by repeat case_match. Qed.

Lemma pretty_N_go_word (x : N) (s : string) :
  is_word s → is_word (pretty_N_go x s).
Proof.
  revert s. induction (N.lt_wf_0 x) as [x _ IH]; intros s Hs.
  destruct (decide (x = 0)%N) as [->|Hx]; [by rewrite pretty_N_go_0|].
  rewrite pretty_N_go_step by lia. apply IH.
  - apply N.div_lt; lia.
  - split; [done|]. split; [apply pretty_N_char_no_space|apply Hs].
Qed.

Lemma pretty_positive_word (p : positive) : is_word (pretty p).
Proof.
  unfold pretty, pretty_positive, pretty, pretty_N.
  rewrite decide_False by done.
  rewrite pretty_N_go_step by lia. apply pretty_N_go_word.
  split; [done|]. split; [apply pretty_N_char_no_space|done].
Qed.

Lemma pretty_Z_word (z : Z) : is_word (pretty z).
Proof.
  destruct z as [|p|p]; unfold pretty, pretty_Z.
  - by repeat split.
  - apply pretty_positive_word.
  - destruct (pretty_positive_word p) as [_ Hp].
    split; [done|]. by split.
Qed.

Lemma indexOf_elem (xs : list Z) (x : Z) : JS.indexOf xs x ≠ -1 ↔ x ∈ xs.
Proof.
  assert (∀ l, -1 ≤ JS.indexOf l x) as Hge.
  { induction l as [|y l IH]; simpl; [done|]. repeat case_bool_decide; lia. }
  induction xs as [|y xs IH]; simpl.
  - split; [done|]. by intros ?%elem_of_nil.
  - rewrite elem_of_cons, <- IH. specialize (Hge xs).
    repeat case_bool_decide; subst; split; intros; try (done || lia); auto.
Qed.

(** ** The first generator *)

Module OperatorTypesFacts.
Import OperatorTypes.

Section Facts.
Context `{Common}.
Variable options : OperatorCodeGenOptions.




(** *** The curried lookup of one left exponent *)

Variable left : Z.

Lemma genCurriedType_loop (xs : list Z) (acc : list string) (first : bool) :
  (foldl (genCurriedType_step options left) (acc, first) xs).1 =
  acc ++ curriedBranches options left first xs.
Proof.
  revert acc first. induction xs as [|x xs IH]; intros acc first; simpl.
  - by rewrite app_nil_r.
  - unfold genCurriedType_step at 2. simpl. case_bool_decide.
    + rewrite IH, <- app_assoc. done.
    + apply IH.
Qed.

Lemma parseLeading_curriedLine (first : bool) (right : Z) :
  TS.parseLeading (if first then "=" else ":") "N"
    (curriedLine options left first right) =
  Some (TS.Case (pretty right) (pretty (compute options left right))).
Proof.
  unfold TS.parseLeading, curriedLine. rewrite words_indent.
  set (op := if first then "=" else ":").
  assert (is_word op) as Hop.
  { unfold op. destruct first; repeat split; auto. }
  assert (op +:+ " N extends " +:+ pretty right +:+ " ? " +:+
            pretty (compute options left right) =
          JS.join " " [op; "N"; "extends"; pretty right; "?";
                       pretty (compute options left right)]) as ->.
  { unfold op. by destruct first. }
  rewrite words_join.
  - by rewrite bool_decide_eq_true_2.
  - repeat apply Forall_cons_2; try apply Forall_nil_2;
      try apply pretty_Z_word; try done; by repeat split.
Qed.

(** The alternatives after the first, read with the colon. *)
Lemma evalChain_curried (xs : list Z) (n : Z) :
  TS.evalChain (TS.parseLeading ":" "N") (pretty n)
    (curriedBranches options left false xs ++ [genErrorCase; ""]) =
  Some (if bool_decide (n ∈ xs ∧ compute options left n ∈ EXPONENTS)
        then pretty (compute options left n) else "ArithmeticError").
Proof.
  induction xs as [|x xs IH].
  - rewrite bool_decide_eq_false_2; [done|]. by intros [?%elem_of_nil _].
  - cbn [curriedBranches].
    destruct (decide (JS.indexOf EXPONENTS (compute options left x) ≠ -1)) as [Hx|Hx].
    + rewrite (bool_decide_eq_true_2 _ Hx).
      cbn [app TS.evalChain]. rewrite (parseLeading_curriedLine false).
      cbv beta iota. destruct (decide (pretty x = pretty n)) as [Hn|Hn].
      * rewrite (bool_decide_eq_true_2 _ Hn).
        apply (inj pretty) in Hn. subst x.
        rewrite bool_decide_eq_true_2; [done|].
        split; [left|by apply indexOf_elem].
      * rewrite (bool_decide_eq_false_2 _ Hn).
        rewrite IH. f_equal. erewrite bool_decide_ext; [done|].
        rewrite elem_of_cons.
        split; [intros [? ?]; auto|intros [[->|?] ?]; [by destruct Hn|auto]].
    + rewrite (bool_decide_eq_false_2 _ Hx).
      rewrite IH. f_equal. erewrite bool_decide_ext; [done|].
      rewrite elem_of_cons.
      split; [intros [? ?]; auto|intros [[->|?] Hin]; [|auto]].
      by apply indexOf_elem in Hin.
Qed.

(** The whole type, read from its first alternative, when some right
    exponent of the list gives a result among the exponents. *)
Lemma applyCurried_branches (name : string) (xs : list Z) (n : Z) :
  Exists (λ r, compute options left r ∈ EXPONENTS) xs →
  TS.applyCurried
    (name :: curriedBranches options left true xs ++ [genErrorCase; ""]) n =
  Some (if bool_decide (n ∈ xs ∧ compute options left n ∈ EXPONENTS)
        then pretty (compute options left n) else "ArithmeticError").
Proof.
  induction xs as [|x xs IH]; intros Hex; [by apply Exists_nil in Hex|].
  cbn [curriedBranches].
  destruct (decide (JS.indexOf EXPONENTS (compute options left x) ≠ -1)) as [Hx|Hx].
  - rewrite (bool_decide_eq_true_2 _ Hx).
    cbn [app TS.applyCurried]. rewrite (parseLeading_curriedLine true).
    cbv beta iota. destruct (decide (pretty x = pretty n)) as [Hn|Hn].
    + rewrite (bool_decide_eq_true_2 _ Hn).
      apply (inj pretty) in Hn. subst x.
      rewrite bool_decide_eq_true_2; [done|].
      split; [left|by apply indexOf_elem].
    + rewrite (bool_decide_eq_false_2 _ Hn).
      rewrite evalChain_curried. f_equal. erewrite bool_decide_ext; [done|].
      rewrite elem_of_cons.
      split; [intros [? ?]; auto|intros [[->|?] ?]; [by destruct Hn|auto]].
  - rewrite (bool_decide_eq_false_2 _ Hx).
    apply Exists_cons in Hex as [Hex|Hex]; [by apply indexOf_elem in Hex|].
    rewrite (IH Hex). f_equal. erewrite bool_decide_ext; [done|].
    rewrite elem_of_cons.
    split; [intros [? ?]; auto|intros [[->|?] Hin]; [|auto]].
    by apply indexOf_elem in Hin.
Qed.

(** A type without alternative has no reading. *)
Lemma applyCurried_no_branches (name : string) (n : Z) :
  TS.applyCurried (name :: [] ++ [genErrorCase; ""]) n = None.
Proof. reflexivity. Qed.

(** The entry of the generated curried type, when it has an alternative:
    the result of [compute] when it is one of the exponents, the error marker
    otherwise. *)
Lemma applyCurried_genCurriedType (n : Z) :
  (∃ r, r ∈ EXPONENTS ∧ compute options left r ∈ EXPONENTS) →
  n ∈ EXPONENTS →
  TS.applyCurried (genCurriedType options left) n =
  Some (if bool_decide (compute options left n ∈ EXPONENTS)
        then pretty (compute options left n) else "ArithmeticError").
Proof.
  intros Hex Hn. unfold genCurriedType. rewrite genCurriedType_loop.
  cbn [app]. rewrite applyCurried_branches by by apply Exists_exists.
  f_equal. erewrite bool_decide_ext; [done|].
  split; [by intros [_ ?]|by split].
Qed.

End Facts.
End OperatorTypesFacts.

(** ** The second generator *)

Module InlineOperatorTypesFacts.
Import InlineOperatorTypes.

Section Facts.
Context `{Common}.
Variable spec : IOperatorSpec.
Variable left : Z.

Lemma inline_genCurriedType_loop (xs : list Z) (acc : list string) :
  foldl (genCurriedType_step spec left) acc xs = acc ++ inlineBranches spec left xs.
Proof.
  unfold inlineBranches.
  revert acc. induction xs as [|x xs IH]; intros acc; simpl.
  - by rewrite app_nil_r.
  - rewrite IH, filter_cons. unfold genCurriedType_step.
    destruct (isExponent (compute spec left x) spec) eqn:Hx.
    + rewrite decide_True by done.
      by rewrite fmap_cons, <- app_assoc.
    + rewrite decide_False; [done|]. by intros [].
Qed.

Lemma parseTrailing_inlineLine (right : Z) :
  TS.parseTrailing "R" (indent (indent (inlineLine spec left right))) =
  Some (TS.Case (pretty right) (pretty (compute spec left right))).
Proof.
  unfold TS.parseTrailing, inlineLine. rewrite !words_indent.
  change ("R extends " +:+ pretty right +:+ " ? " +:+
            pretty (compute spec left right) +:+ " :")
    with (JS.join " " ["R"; "extends"; pretty right; "?";
                       pretty (compute spec left right); ":"]).
  rewrite words_join.
  - by rewrite bool_decide_eq_true_2.
  - repeat apply Forall_cons_2; try apply Forall_nil_2;
      try apply pretty_Z_word; try done; by repeat split.
Qed.

Lemma evalChain_inline (xs : list Z) (n : Z) :
  TS.evalChain (TS.parseTrailing "R") (pretty n)
    (indent <$> (indent <$> (inlineBranches spec left xs ++ [indent "never"] ++ [")"]))) =
  Some (if bool_decide (n ∈ xs ∧ isExponent (compute spec left n) spec)
        then pretty (compute spec left n) else "never").
Proof.
  unfold inlineBranches. induction xs as [|x xs IH].
  - rewrite bool_decide_eq_false_2; [done|]. by intros [?%elem_of_nil _].
  - rewrite filter_cons.
    destruct (isExponent (compute spec left x) spec) eqn:Hx.
    + rewrite decide_True by done.
      rewrite fmap_cons, <- app_comm_cons, !fmap_cons.
      cbn [TS.evalChain]. rewrite parseTrailing_inlineLine.
      cbv beta iota. destruct (decide (pretty x = pretty n)) as [Hn|Hn].
      * rewrite (bool_decide_eq_true_2 _ Hn).
        apply (inj pretty) in Hn. subst x.
        rewrite bool_decide_eq_true_2; [done|].
        split; [left|by rewrite Hx].
      * rewrite (bool_decide_eq_false_2 _ Hn).
        rewrite IH. f_equal. erewrite bool_decide_ext; [done|].
        rewrite elem_of_cons.
        split; [intros [? ?]; auto|intros [[->|?] ?]; [by destruct Hn|auto]].
    + rewrite decide_False by (by intros []).
      rewrite IH. f_equal. erewrite bool_decide_ext; [done|].
      rewrite elem_of_cons.
      split; [intros [? ?]; auto|intros [[->|?] Hin]; [|auto]].
      by rewrite Hx in Hin.
Qed.

(** The entry of the generated parenthesised lookup: the result of
    [compute] when [isExponent] accepts it, [never] otherwise. *)
Lemma applyInline_genCurriedType (exponents : list Z) (n : Z) :
  n ∈ exponents →
  TS.applyInline (genCurriedType spec exponents left) n =
  Some (if isExponent (compute spec left n) spec
        then pretty (compute spec left n) else "never").
Proof.
  intros Hn. unfold genCurriedType. rewrite inline_genCurriedType_loop.
  rewrite <- app_assoc, <- app_comm_cons, !fmap_cons. cbn [app TS.applyInline].
  rewrite evalChain_inline.
  destruct (isExponent (compute spec left n) spec).
  - by rewrite bool_decide_eq_true_2.
  - rewrite bool_decide_eq_false_2; [done|]. by intros [_ ?].
Qed.

End Facts.
End InlineOperatorTypesFacts.

(** ** The lookup of both generators *)

(** C1, as amended: for a right exponent of the domain the generated lookup
    of a left exponent gives the result of [compute] when that is in the
    domain; otherwise it gives the closing alternative of the generator,
    which is [ArithmeticError] in the generator of named curried types and
    [never] in the generator that inlines the lookup.  For the generator of
    named curried types this is so when some right exponent gives the left
    exponent a result in the domain, so that its type has an alternative. *)
Theorem generated_lookup_total
    `{!OperatorTypes.Common} `{!InlineOperatorTypes.Common}
    (options : OperatorTypes.OperatorCodeGenOptions)
    (spec : InlineOperatorTypes.IOperatorSpec)
    (exponents : list Z) (left n : Z) :
  ((∃ r, r ∈ OperatorTypes.EXPONENTS ∧
         OperatorTypes.compute options left r ∈ OperatorTypes.EXPONENTS) →
   n ∈ OperatorTypes.EXPONENTS →
   TS.applyCurried (OperatorTypes.genCurriedType options left) n =
   Some (if bool_decide (OperatorTypes.compute options left n ∈ OperatorTypes.EXPONENTS)
         then pretty (OperatorTypes.compute options left n)
         else "ArithmeticError")) ∧
  (n ∈ exponents →
   TS.applyInline (InlineOperatorTypes.genCurriedType spec exponents left) n =
   Some (if InlineOperatorTypes.isExponent (InlineOperatorTypes.compute spec left n) spec
         then pretty (InlineOperatorTypes.compute spec left n)
         else "never")).
Proof.
  split.
  - apply OperatorTypesFacts.applyCurried_genCurriedType.
  - apply InlineOperatorTypesFacts.applyInline_genCurriedType.
Qed.

Lemma generated_lookup_total_witness :
  TS.applyCurried
    (@OperatorTypes.genCurriedType sampleCommon sampleOptions 1) 1 = Some "2" ∧
  TS.applyCurried
    (@OperatorTypes.genCurriedType sampleCommon sampleOptions 2) 1
    = Some "ArithmeticError" ∧
  TS.applyInline
    (@InlineOperatorTypes.genCurriedType sampleInlineCommon sampleSpec sampleExponents 1) 1
    = Some "2" ∧
  TS.applyInline
    (@InlineOperatorTypes.genCurriedType sampleInlineCommon sampleSpec sampleExponents 2) 1
    = Some "never".
Proof.
  assert (1 ∈ sampleExponents) as Hin.
  { apply (bool_decide_unpack _). vm_compute. exact I. }
  assert (∀ left : Z, left = 1 ∨ left = 2 →
            ∃ r, r ∈ sampleExponents ∧ left + r ∈ sampleExponents) as Hex.
  { intros left Hleft. exists (-2).
    split; apply (bool_decide_unpack _); destruct Hleft as [-> | ->];
      vm_compute; exact I. }
  destruct (@generated_lookup_total sampleCommon sampleInlineCommon
              sampleOptions sampleSpec sampleExponents 1 1) as [H1 H2].
  destruct (@generated_lookup_total sampleCommon sampleInlineCommon
              sampleOptions sampleSpec sampleExponents 2 1) as [H3 H4].
  split_and!.
  - exact (H1 (Hex 1 (or_introl eq_refl)) Hin).
  - exact (H3 (Hex 2 (or_intror eq_refl)) Hin).
  - exact (H2 Hin).
  - exact (H4 Hin).
Defined.

(** The claim with [ArithmeticError] as the only closing alternative fails
    on the generator that inlines the lookup: 2 + 1 leaves the sample domain
    and the entry is [never]. *)
Lemma generated_lookup_inline_counterexample :
  ¬ (∀ (C : InlineOperatorTypes.Common) (spec : InlineOperatorTypes.IOperatorSpec)
       (exponents : list Z) (left n : Z),
       n ∈ exponents →
       TS.applyInline (InlineOperatorTypes.genCurriedType spec exponents left) n =
       Some (if InlineOperatorTypes.isExponent
                  (InlineOperatorTypes.compute spec left n) spec
             then pretty (InlineOperatorTypes.compute spec left n)
             else "ArithmeticError")).
Proof.
  intros Hclaim.
  specialize (Hclaim sampleInlineCommon sampleSpec sampleExponents 2 1).
  assert (1 ∈ sampleExponents) as Hin.
  { apply (bool_decide_unpack _). vm_compute. exact I. }
  specialize (Hclaim Hin). vm_compute in Hclaim. discriminate Hclaim.
Qed.


(** ** The generic measure *)

Module MeasureFacts.
Import Measure.

Section Facts.
Context {N : Type} `{!INumericOperations N} `{!ExponentDomain}.

(** C7: on measures of equal units, [in] gives the formatted quotient of
    the two values followed by the symbol of the given unit, and gives
    what [toString] gives when the given unit has no symbol. *)
Theorem in_quotient_or_toString (separator : string) (m u : GenericMeasure N) :
  isCompatible (unit m) (unit u) = true →
  match symbol u with
  | Some s =>
      in_ separator m u = inr (format (div (value m) (value u)) +:+ separator +:+ s)
  | None => in_ separator m u = inr (toString m)
  end.
Proof. intros Hc. unfold in_. rewrite Hc. simpl. by destruct (symbol u). Qed.

(** C8: [squared] is offered exactly when 2 is an allowed exponent of the
    unit of the measure and [cubed] exactly when 3 is; what they return,
    when offered, is what [toThe] returns for 2 and for 3. *)
Theorem squared_cubed_offered (m : GenericMeasure N) :
  (is_Some (squared m) ↔ allowedExponent (unit m) 2 = true) ∧
  (∀ r, squared m = Some r → r = toThe m 2) ∧
  (is_Some (cubed m) ↔ allowedExponent (unit m) 3 = true) ∧
  (∀ r, cubed m = Some r → r = toThe m 3).
Proof.
  unfold squared, cubed.
  destruct (allowedExponent (unit m) 2), (allowedExponent (unit m) 3);
    split_and!; try (intros r [= <-]; done); try done;
    split; (done || by intros [? [=]]).
Qed.

End Facts.

Lemma in_quotient_or_toString_witness :
  let metre := mkMeasure 1 (unitOf [("m", 1)]) (Some "m") in
  let foot := mkMeasure 3 (unitOf [("m", 1)]) (Some "ft") in
  let plain := mkMeasure 3 (unitOf [("m", 1)]) None in
  let m := mkMeasure 12 (unitOf [("m", 1)]) None in
  @in_ Z numericZ " " m foot = inr "4 ft" ∧
  @in_ Z numericZ " " m plain = inr "12 m".
Proof.
  simpl. split.
  - exact (@in_quotient_or_toString Z numericZ " "
             (mkMeasure 12 (unitOf [("m", 1)]) None)
             (mkMeasure 3 (unitOf [("m", 1)]) (Some "ft")) eq_refl).
  - exact (@in_quotient_or_toString Z numericZ " "
             (mkMeasure 12 (unitOf [("m", 1)]) None)
             (mkMeasure 3 (unitOf [("m", 1)]) None) eq_refl).
Defined.

Lemma squared_cubed_offered_witness :
  let area := mkMeasure 5 (unitOf [("m", 2)]) None in
  is_Some (@squared Z numericZ sampleDomain area) ∧
  ¬ is_Some (@cubed Z numericZ sampleDomain area).
Proof.
  simpl.
  destruct (@squared_cubed_offered Z numericZ sampleDomain
              (mkMeasure 5 (unitOf [("m", 2)]) None)) as (H2 & _ & H3 & _).
  split.
  - apply H2. reflexivity.
  - intros Hs. apply H3 in Hs. discriminate Hs.
Defined.

End MeasureFacts.

(** * Further properties *)

(** ** The formatter *)

Lemma join_nonempty (sep : string) (xs : list string) :
  xs ≠ [] → Forall (λ x, x ≠ "") xs → JS.join sep xs ≠ "".
Proof.
  destruct xs as [|[|c x] xs]; [done|..]; intros _ Hxs.
  - by apply Forall_cons_1 in Hxs as [? _].
  - by destruct xs.
Qed.

Lemma formatDimensions_nonempty (ds : list SymbolAndExponent) :
  ds ≠ [] → Forall (λ d : SymbolAndExponent, d.1 ≠ "") ds → formatDimensions ds ≠ "".
Proof.
  intros Hne Hds. apply join_nonempty.
  - by destruct ds.
  - apply Forall_fmap. eapply Forall_impl; [exact Hds|].
    intros [[|c s] e] Hs; [done|]. done.
Qed.

Lemma append_empty (a b : string) : a +:+ b = "" → a = "".
Proof. by destruct a. Qed.

(** X1: a unit without a present dimension is formatted as the empty string,
    and when every present dimension has a symbol that is not empty, the empty
    string is the result for such units only. *)
Theorem formatUnit_empty_iff (u : UnitWithSymbols) :
  Forall (λ d : SymbolAndExponent, d.1 ≠ "") (presentDimensions u) →
  formatUnit u = "" ↔ presentDimensions u = [].
Proof.
  intros Hsym. split.
  - intros Hf. rewrite formatUnit_by_groups in Hf.
    assert (positiveOf (sortedDimensions u) ++ negativeOf (sortedDimensions u)
            ≡ₚ presentDimensions u) as Hg.
    { etrans; [apply groups_Permutation, sortedDimensions_nonzero|].
      apply sortedDimensions_Permutation. }
    assert (Forall (λ d : SymbolAndExponent, d.1 ≠ "")
              (positiveOf (sortedDimensions u) ++ negativeOf (sortedDimensions u)))
      as [Hp Hn]%Forall_app by (by rewrite Hg).
    destruct (positiveOf (sortedDimensions u)) as [|p ps] eqn:Ep.
    + destruct (negativeOf (sortedDimensions u)) as [|n ns] eqn:En.
      * simpl in Hg. by apply Permutation_nil in Hg.
      * by apply formatDimensions_nonempty in Hf.
    + destruct (negativeOf (sortedDimensions u)) as [|n ns] eqn:En.
      * by apply formatDimensions_nonempty in Hf.
      * apply append_empty in Hf. by apply formatDimensions_nonempty in Hf.
  - intros Hp. unfold formatUnit, sortedDimensions. by rewrite Hp.
Qed.

Lemma formatUnit_empty_iff_witness :
  formatUnit [("length", Some ("m", 0)); ("time", None)] = "".
Proof.
  apply formatUnit_empty_iff.
  - apply (bool_decide_unpack _). vm_compute. exact I.
  - reflexivity.
Defined.

Lemma positiveOf_all (l : list SymbolAndExponent) :
  Forall (λ d : SymbolAndExponent, 0 < d.2) l → positiveOf l = l ∧ negativeOf l = [].
Proof.
  unfold positiveOf, negativeOf.
  induction 1 as [|x l Hx _ [IH1 IH2]]; [done|].
  rewrite !filter_cons. repeat case_decide; try lia. by rewrite IH1, IH2.
Qed.

(** X2: when no dimension has a negative exponent, the result is the
    non-zero dimensions, each once, in ascending order of symbol, joined by
    [" * "], with no [" / "] part; a symbol is followed by ["^"] and its
    exponent unless the exponent is 1. *)
Theorem formatUnit_all_positive (u : UnitWithSymbols) :
  (∀ d s e, JS.get u d = Some (s, e) → 0 ≤ e) →
  ∃ dimensions : list SymbolAndExponent,
    dimensions ≡ₚ presentDimensions u ∧
    (∀ x, x ∈ dimensions ↔ x.2 ≠ 0 ∧ ∃ d, JS.get u d = Some x) ∧
    StronglySorted String.le dimensions.*1 ∧
    Forall (λ d : SymbolAndExponent, 0 < d.2) dimensions ∧
    formatUnit u =
      JS.join " * "
        ((λ d : SymbolAndExponent,
            d.1 +:+ (if bool_decide (d.2 = 1) then "" else "^" +:+ pretty d.2))
           <$> dimensions).
Proof.
  intros Hpos. exists (sortedDimensions u).
  assert (Forall (λ d : SymbolAndExponent, 0 < d.2) (sortedDimensions u)) as Hall.
  { apply Forall_forall. intros [s e] [Hne [d Hd]]%sortedDimensions_elem.
    apply Hpos in Hd. simpl in *. lia. }
  split_and!; [apply sortedDimensions_Permutation|apply sortedDimensions_elem| |done|].
  { apply (StronglySorted_fmap _ symbol_le); [done|]. apply sortedDimensions_sorted. }
  rewrite formatUnit_by_groups.
  destruct (positiveOf_all _ Hall) as [-> ->].
  assert (formatDimensions (sortedDimensions u) =
          JS.join " * "
            ((λ d : SymbolAndExponent,
                d.1 +:+ (if bool_decide (d.2 = 1) then "" else "^" +:+ pretty d.2))
               <$> sortedDimensions u)) as <-.
  { unfold formatDimensions. f_equal. apply list_fmap_ext.
    intros _ [s e] _. unfold formatDimension. simpl.
    case_bool_decide; destruct (Z.eqb_spec e 1); (done || lia). }
  by destruct (sortedDimensions u).
Qed.

Lemma formatUnit_all_positive_witness :
  ∃ dimensions : list SymbolAndExponent,
    dimensions ≡ₚ [("s", 1); ("m", 2)] ∧
    StronglySorted String.le dimensions.*1 ∧
    formatUnit (unitOf [("s", 1); ("m", 2); ("kg", 0)]) =
      JS.join " * "
        ((λ d : SymbolAndExponent,
            d.1 +:+ (if bool_decide (d.2 = 1) then "" else "^" +:+ pretty d.2))
           <$> dimensions).
Proof.
  destruct (formatUnit_all_positive (unitOf [("s", 1); ("m", 2); ("kg", 0)]))
    as (dimensions & Hperm & _ & Hsorted & _ & Hformat).
  - intros d s e. simpl. repeat case_bool_decide; intros [= <- <-]; lia.
  - exists dimensions. split_and!; [exact Hperm|exact Hsorted|exact Hformat].
Defined.

Lemma append_empty_r (s : string) : s +:+ "" = s.
Proof.
  induction s as [|c s IH]; [done|].
  change (String c (s +:+ "") = String c s). by f_equal.
Qed.

Lemma sortedDimensions_single (k s : string) (e : Z) :
  sortedDimensions [(k, Some (s, e))] = if bool_decide (e = 0) then [] else [(s, e)].
Proof.
  unfold sortedDimensions, presentDimensions. simpl.
  rewrite (bool_decide_eq_true_2 (k = k)) by done.
  rewrite filter_cons, filter_nil. simpl.
  destruct (Z.eqb_spec e 0) as [->|He0]; simpl; [done|].
  by rewrite (bool_decide_eq_false_2 (e = 0)) by done.
Qed.

(** X3: a unit with a single entry is formatted as the empty string when the
    exponent is 0, as the bare symbol when it is 1, and otherwise as the
    symbol, ["^"] and the exponent, the sign of a negative exponent kept. *)
Theorem formatUnit_single (k s : string) (e : Z) :
  formatUnit [(k, Some (s, e))] =
    if bool_decide (e = 0) then ""
    else if bool_decide (e = 1) then s
    else s +:+ "^" +:+ pretty e.
Proof.
  rewrite formatUnit_by_groups, sortedDimensions_single.
  case_bool_decide as He0; [done|].
  unfold positiveOf, negativeOf. rewrite !filter_cons, !filter_nil. simpl.
  assert (formatDimensions [(s, e)] =
          if bool_decide (e = 1) then s else s +:+ "^" +:+ pretty e) as Hfd.
  { unfold formatDimensions, formatDimension. simpl.
    case_bool_decide; destruct (Z.eqb_spec e 1); try lia; simpl; [|done].
    apply append_empty_r. }
  destruct (decide (0 < e)), (decide (e < 0)); try lia; by rewrite <- Hfd.
Qed.

(** X4: the names under which an object lists its dimensions play no part:
    two objects whose values, taken in order, are the same are formatted the
    same. *)
Theorem formatUnit_keys_irrelevant (u u' : UnitWithSymbols) :
  NoDup (JS.keys u) → NoDup (JS.keys u') → u.*2 = u'.*2 →
  formatUnit u = formatUnit u'.
Proof.
  intros Hu Hu' Hv. apply formatUnit_present.
  rewrite !presentDimensions_values by done. by rewrite Hv.
Qed.

Lemma formatUnit_keys_irrelevant_witness :
  formatUnit [("length", Some ("m", 1)); ("time", Some ("s", -2))] =
  formatUnit [("m", Some ("m", 1)); ("s", Some ("s", -2))].
Proof.
  apply formatUnit_keys_irrelevant.
  - apply (bool_decide_unpack _). vm_compute. exact I.
  - apply (bool_decide_unpack _). vm_compute. exact I.
  - reflexivity.
Defined.

(** X6: the comparator never answers 0.  For dimensions with different
    symbols its two answers are opposite; for dimensions with the same symbol
    it answers 1 both ways round. *)
Theorem orderDimensions_answers (l r : SymbolAndExponent) :
  (orderDimensions l r = -1 ∨ orderDimensions l r = 1) ∧
  (l.1 ≠ r.1 → orderDimensions l r = - orderDimensions r l) ∧
  (l.1 = r.1 → orderDimensions l r = 1 ∧ orderDimensions r l = 1).
Proof.
  unfold orderDimensions, JS.str_lt, String.ltb.
  rewrite (String.compare_antisym l.1 r.1).
  destruct (String.compare r.1 l.1) eqn:Hc; simpl; split_and!; auto.
  - apply String.compare_eq_iff in Hc. by intros [].
  - intros Heq. rewrite Heq in Hc.
    pose proof (String.compare_antisym r.1 r.1) as Ha.
    rewrite Hc in Ha. discriminate Ha.
  - intros Heq. rewrite Heq in Hc.
    pose proof (String.compare_antisym r.1 r.1) as Ha.
    rewrite Hc in Ha. discriminate Ha.
Qed.

Lemma orderDimensions_answers_witness :
  orderDimensions ("kg", 1) ("m", 1) = - orderDimensions ("m", 1) ("kg", 1) ∧
  orderDimensions ("m", 1) ("m", -2) = 1 ∧ orderDimensions ("m", -2) ("m", 1) = 1.
Proof.
  destruct (orderDimensions_answers ("kg", 1) ("m", 1)) as (_ & Hne & _).
  destruct (orderDimensions_answers ("m", 1) ("m", -2)) as (_ & _ & Heq).
  split; [apply Hne; discriminate|apply Heq; reflexivity].
Defined.

(** *** The inverse of a unit *)

Lemma negateDimension_involutive (d : SymbolAndExponent) :
  negateDimension (negateDimension d) = d.
Proof. destruct d as [s e]. unfold negateDimension. simpl. f_equal. lia. Qed.

Lemma get_negateUnit (u : UnitWithSymbols) (k : string) :
  JS.get (negateUnit u) k = negateDimension <$> JS.get u k.
Proof.
  induction u as [|[k' v] u IH]; [done|].
  unfold negateUnit. rewrite fmap_cons. simpl. by case_bool_decide.
Qed.

Lemma keys_negateUnit (u : UnitWithSymbols) : JS.keys (negateUnit u) = JS.keys u.
Proof.
  unfold JS.keys, negateUnit. rewrite <- list_fmap_compose. by apply list_fmap_ext.
Qed.

Lemma isDimensionPresent_negate (o : option SymbolAndExponent) :
  isDimensionPresent (negateDimension <$> o) = isDimensionPresent o.
Proof.
  destruct o as [[s e]|]; [|done]. simpl.
  by destruct (Z.eqb_spec e 0), (Z.eqb_spec (- e) 0); try lia.
Qed.

Lemma present_fmap_negate (l : list (option SymbolAndExponent)) :
  omap id (filter (λ d, isDimensionPresent d) (fmap negateDimension <$> l)) =
  negateDimension <$> omap id (filter (λ d, isDimensionPresent d) l).
Proof.
  induction l as [|o l IH]; [done|].
  rewrite fmap_cons, !filter_cons.
  pose proof (isDimensionPresent_negate o) as Ho.
  destruct (decide (isDimensionPresent (negateDimension <$> o))) as [H1|H1],
    (decide (isDimensionPresent o)) as [H2|H2];
    try (rewrite Ho in H1; done).
  destruct o as [d|]; [|done]. exact (f_equal (cons (negateDimension d)) IH).
Qed.

Lemma presentDimensions_negateUnit (u : UnitWithSymbols) :
  presentDimensions (negateUnit u) = negateDimension <$> presentDimensions u.
Proof.
  unfold presentDimensions. rewrite keys_negateUnit, <- present_fmap_negate.
  do 2 f_equal. rewrite <- list_fmap_compose. apply list_fmap_ext.
  intros _ k _. apply get_negateUnit.
Qed.

Lemma insert_by_fmap {A} (cmp : A → A → Z) (f : A → A) (x : A) (l : list A) :
  (∀ a b, cmp (f a) (f b) = cmp a b) →
  JS.insert_by cmp (f x) (f <$> l) = f <$> JS.insert_by cmp x l.
Proof.
  intros Hf. induction l as [|y l IH]; [done|].
  rewrite fmap_cons. simpl. rewrite Hf, IH. by case_bool_decide.
Qed.

Lemma sort_fmap {A} (cmp : A → A → Z) (f : A → A) (l : list A) :
  (∀ a b, cmp (f a) (f b) = cmp a b) →
  JS.sort cmp (f <$> l) = f <$> JS.sort cmp l.
Proof.
  intros Hf. unfold JS.sort.
  change (@nil A) with (f <$> @nil A) at 1. generalize (@nil A).
  induction l as [|x l IH]; intros acc; [done|].
  rewrite fmap_cons. simpl. by rewrite insert_by_fmap, IH.
Qed.

Lemma sortedDimensions_negateUnit (u : UnitWithSymbols) :
  sortedDimensions (negateUnit u) = negateDimension <$> sortedDimensions u.
Proof.
  unfold sortedDimensions. rewrite presentDimensions_negateUnit.
  by apply sort_fmap.
Qed.

Lemma groups_negate (l : list SymbolAndExponent) :
  positiveOf (negateDimension <$> l) = negateDimension <$> negativeOf l ∧
  negativeOf (negateDimension <$> l) = negateDimension <$> positiveOf l.
Proof.
  unfold positiveOf, negativeOf.
  induction l as [|[s e] l [IH1 IH2]]; [done|].
  rewrite fmap_cons, !filter_cons. simpl. rewrite IH1, IH2.
  split; repeat case_decide; (done || lia).
Qed.

(** X5: for a unit with a positive and a negative dimension, negating every
    exponent swaps the two sides of the fraction: the numerator of the one
    result is the denominator of the other, parentheses apart. *)
Theorem formatUnit_negateUnit (u : UnitWithSymbols) :
  (∃ d s e, JS.get u d = Some (s, e) ∧ 0 < e) →
  (∃ d s e, JS.get u d = Some (s, e) ∧ e < 0) →
  let positive := positiveOf (sortedDimensions u) in
  let negative := negativeOf (sortedDimensions u) in
  let top := formatDimensions positive in
  let bottom := formatDimensions (negateDimension <$> negative) in
  formatUnit u =
    top +:+ " / " +:+
      maybeParenthesize bottom (negb (bool_decide (length negative = 1%nat))) ∧
  formatUnit (negateUnit u) =
    bottom +:+ " / " +:+
      maybeParenthesize top (negb (bool_decide (length positive = 1%nat))).
Proof.
  intros (dp & sp & ep & Hp & Hep) (dn & sn & en & Hn & Hen). simpl.
  assert ((sp, ep) ∈ positiveOf (sortedDimensions u)) as Hpos.
  { apply list_elem_of_filter. split; [done|].
    apply sortedDimensions_elem. simpl. split; [lia|eauto]. }
  assert ((sn, en) ∈ negativeOf (sortedDimensions u)) as Hneg.
  { apply list_elem_of_filter. split; [done|].
    apply sortedDimensions_elem. simpl. split; [lia|eauto]. }
  rewrite !formatUnit_by_groups, sortedDimensions_negateUnit.
  destruct (groups_negate (sortedDimensions u)) as [-> ->].
  destruct (positiveOf (sortedDimensions u)) as [|p ps];
    [by apply elem_of_nil in Hpos|].
  destruct (negativeOf (sortedDimensions u)) as [|n ns];
    [by apply elem_of_nil in Hneg|].
  split; [done|].
  assert (negateDimension <$> (negateDimension <$> p :: ps) = p :: ps) as Hinv.
  { rewrite <- list_fmap_compose. rewrite <- (list_fmap_id (p :: ps)) at 2.
    apply list_fmap_ext. intros _ d _. apply negateDimension_involutive. }
  rewrite !fmap_cons. cbv zeta iota. rewrite <- !fmap_cons.
  by rewrite Hinv, length_fmap.
Qed.

Lemma formatUnit_negateUnit_witness :
  formatUnit (unitOf [("kg", 1); ("m", 1); ("s", -2)]) = "kg * m / s^2" ∧
  formatUnit (negateUnit (unitOf [("kg", 1); ("m", 1); ("s", -2)])) = "s^2 / (kg * m)".
Proof.
  destruct (formatUnit_negateUnit (unitOf [("kg", 1); ("m", 1); ("s", -2)]))
    as [H1 H2].
  - exists "m", "m", 1. split; [reflexivity|lia].
  - exists "s", "s", (-2). split; [reflexivity|lia].
  - split; [rewrite H1|rewrite H2]; reflexivity.
Defined.

(** ** The generators *)

Lemma pretty_N_char_numeral (x : N) : is_Some (Ascii.is_nat (pretty_N_char x)).
Proof. unfold pretty_N_char. repeat case_match; by eexists. Qed.

Lemma pretty_N_go_numeral (x : N) (s : string) :
  numeral s → numeral (pretty_N_go x s).
Proof.
  revert s. induction (N.lt_wf_0 x) as [x _ IH]; intros s Hs.
  destruct (decide (x = 0)%N) as [->|Hx]; [by rewrite pretty_N_go_0|].
  rewrite pretty_N_go_step by lia. apply IH.
  - apply N.div_lt; lia.
  - split; [left; apply pretty_N_char_numeral|done].
Qed.

Lemma pretty_Z_numeral (z : Z) : numeral (pretty z).
Proof.
  assert (∀ p : positive, numeral (pretty p)) as Hp.
  { intros p. unfold pretty, pretty_positive, pretty, pretty_N.
    rewrite decide_False by done. by apply pretty_N_go_numeral. }
  destruct z as [|p|p]; unfold pretty, pretty_Z.
  - split; [left; by eexists|done].
  - apply Hp.
  - split; [by right|apply Hp].
Qed.

Lemma pretty_Z_not_ArithmeticError (z : Z) : pretty z ≠ "ArithmeticError".
Proof.
  intros Hz. pose proof (pretty_Z_numeral z) as Hn. rewrite Hz in Hn.
  destruct Hn as [[[? [=]]|[=]] _].
Qed.

Lemma pretty_Z_not_never (z : Z) : pretty z ≠ "never".
Proof.
  intros Hz. pose proof (pretty_Z_numeral z) as Hn. rewrite Hz in Hn.
  destruct Hn as [[[? [=]]|[=]] _].
Qed.

(** *** The first generator *)

Module OperatorTypesLookup.
Import OperatorTypes.

Section Facts.
Context `{Common}.
Variable options : OperatorCodeGenOptions.

Lemma applyCurried_some (left n : Z) :
  (∃ r, r ∈ EXPONENTS ∧ compute options left r ∈ EXPONENTS) →
  TS.applyCurried (genCurriedType options left) n =
  Some (if bool_decide (n ∈ EXPONENTS ∧ compute options left n ∈ EXPONENTS)
        then pretty (compute options left n) else "ArithmeticError").
Proof.
  intros Hex. unfold genCurriedType.
  rewrite OperatorTypesFacts.genCurriedType_loop. cbn [app].
  apply OperatorTypesFacts.applyCurried_branches. by apply Exists_exists.
Qed.

Lemma curriedBranches_skip (left : Z) (pre xs : list Z) (first : bool) :
  (∀ r, r ∈ pre → compute options left r ∉ EXPONENTS) →
  curriedBranches options left first (pre ++ xs) = curriedBranches options left first xs.
Proof.
  induction pre as [|x pre IH]; intros Hpre; [done|].
  simpl. rewrite bool_decide_eq_false_2.
  - apply IH. intros r Hr. apply Hpre. by right.
  - rewrite indexOf_elem. apply Hpre. by left.
Qed.

Lemma curriedBranches_colon (left : Z) (xs : list Z) :
  Forall (λ line, ∃ rest, line = indent (":" +:+ rest))
    (curriedBranches options left false xs).
Proof.
  induction xs as [|x xs IH]; simpl; [done|].
  case_bool_decide; [|done]. constructor; [|done].
  unfold curriedLine. by eexists.
Qed.

Lemma applyCurried_none (left n : Z) :
  (∀ r, r ∈ EXPONENTS → compute options left r ∉ EXPONENTS) →
  TS.applyCurried (genCurriedType options left) n = None.
Proof.
  intros Hout. unfold genCurriedType.
  rewrite OperatorTypesFacts.genCurriedType_loop.
  rewrite <- (app_nil_r EXPONENTS) at 1.
  by rewrite curriedBranches_skip.
Qed.

(** X7: when [compute] leaves the exponents for every right exponent, the
    curried type of the left exponent has no alternative at all: the line
    with its name is followed at once by the error alternative that begins
    with a colon. *)
Theorem genCurriedType_no_alternative (left : Z) :
  (∀ r, r ∈ EXPONENTS → compute options left r ∉ EXPONENTS) →
  genCurriedType options left =
    ["export type " +:+ genCurriedTypeName options left +:+ "<N extends Exponent>";
     "    : ArithmeticError;"; ""].
Proof.
  intros Hout. unfold genCurriedType.
  rewrite OperatorTypesFacts.genCurriedType_loop.
  rewrite <- (app_nil_r EXPONENTS) at 1.
  by rewrite curriedBranches_skip.
Qed.

(** X8: the first alternative emitted carries [=], also when right exponents
    before it were skipped because their results leave the exponents; every
    line after it is empty or begins, after the indentation, with a colon. *)
Theorem genCurriedType_first_alternative (left r0 : Z) (pre post : list Z) :
  EXPONENTS = pre ++ r0 :: post →
  (∀ r, r ∈ pre → compute options left r ∉ EXPONENTS) →
  compute options left r0 ∈ EXPONENTS →
  ∃ later : list string,
    genCurriedType options left =
      ("export type " +:+ genCurriedTypeName options left +:+ "<N extends Exponent>")
      :: indent ("= N extends " +:+ pretty r0 +:+ " ? " +:+
                 pretty (compute options left r0))
      :: later ∧
    Forall (λ line, line = "" ∨ ∃ rest, line = indent (":" +:+ rest)) later.
Proof.
  intros HE Hpre Hr0.
  exists (curriedBranches options left false post ++ [genErrorCase] ++ [""]).
  split.
  - unfold genCurriedType. rewrite OperatorTypesFacts.genCurriedType_loop.
    assert (curriedBranches options left true EXPONENTS =
            curriedLine options left true r0 :: curriedBranches options left false post)
      as ->; [|done].
    rewrite HE at 1. rewrite curriedBranches_skip by done. simpl.
    rewrite bool_decide_eq_true_2; [done|]. by apply indexOf_elem.
  - apply Forall_app. split.
    + eapply Forall_impl; [apply curriedBranches_colon|].
      intros line Hline. by right.
    + apply Forall_cons_2; [right; by eexists|].
      apply Forall_cons_2; [by left|constructor].
Qed.

(** X9: when the curried type of the left exponent has an alternative,
    applying it to a literal that is not one of the exponents falls through
    to the error alternative. *)
Theorem applyCurried_outside (left n : Z) :
  (∃ r, r ∈ EXPONENTS ∧ compute options left r ∈ EXPONENTS) →
  n ∉ EXPONENTS →
  TS.applyCurried (genCurriedType options left) n = Some "ArithmeticError".
Proof.
  intros Hex Hn. rewrite applyCurried_some by done.
  rewrite bool_decide_eq_false_2; [done|]. by intros [? _].
Qed.

(** X10: a number that the curried type of [left] gives for [n] is the
    result of [compute] on [left] and [n], with [n] and the result both
    among the exponents: the table holds nothing from outside the domain. *)
Theorem applyCurried_sound (left n z : Z) :
  TS.applyCurried (genCurriedType options left) n = Some (pretty z) →
  n ∈ EXPONENTS ∧ z = compute options left n ∧ z ∈ EXPONENTS.
Proof.
  destruct (decide (Exists (λ r, compute options left r ∈ EXPONENTS) EXPONENTS))
    as [Hex|Hex].
  - rewrite applyCurried_some by by apply Exists_exists.
    case_bool_decide as Hin; intros [= Heq].
    + apply (inj pretty) in Heq. subst z. by destruct Hin.
    + symmetry in Heq. by apply pretty_Z_not_ArithmeticError in Heq.
  - rewrite applyCurried_none; [done|].
    intros r Hr Hin. apply Hex, Exists_exists. eauto.
Qed.

(** X11: for two exponents whose curried types both have an alternative and
    on which [compute] gives the same in either order, the generated tables
    agree: the curried type of the one applied to the other gives the same
    both ways round. *)
Theorem applyCurried_symmetric (l r : Z) :
  (∃ x, x ∈ EXPONENTS ∧ compute options l x ∈ EXPONENTS) →
  (∃ x, x ∈ EXPONENTS ∧ compute options r x ∈ EXPONENTS) →
  l ∈ EXPONENTS → r ∈ EXPONENTS →
  compute options l r = compute options r l →
  TS.applyCurried (genCurriedType options l) r =
  TS.applyCurried (genCurriedType options r) l.
Proof.
  intros Hexl Hexr Hl Hr Hc. rewrite !applyCurried_some, Hc by done. f_equal.
  erewrite bool_decide_ext; [done|]. split; intros [_ ?]; by split.
Qed.

End Facts.
End OperatorTypesLookup.

Lemma genCurriedType_no_alternative_witness :
  @OperatorTypes.genCurriedType sampleCommon sampleOptions 5 =
    ["export type AddPositive5<N extends Exponent>"; "    : ArithmeticError;"; ""].
Proof.
  apply (@OperatorTypesLookup.genCurriedType_no_alternative sampleCommon sampleOptions 5).
  intros r Hr. apply (bool_decide_unpack _).
  simpl in Hr. unfold sampleExponents in Hr.
  repeat (apply elem_of_cons in Hr as [->|Hr]; [vm_compute; exact I|]).
  by apply elem_of_nil in Hr.
Defined.

Lemma genCurriedType_first_alternative_witness :
  @OperatorTypes.genCurriedType sampleCommon sampleOptions (-2) !! 1%nat =
    Some "    = N extends 0 ? -2".
Proof.
  destruct (@OperatorTypesLookup.genCurriedType_first_alternative
              sampleCommon sampleOptions (-2) 0 [-2; -1] [1; 2])
    as (later & Hlines & _).
  - reflexivity.
  - intros r Hr. apply (bool_decide_unpack _).
    repeat (apply elem_of_cons in Hr as [->|Hr]; [vm_compute; exact I|]).
    by apply elem_of_nil in Hr.
  - apply (bool_decide_unpack _). vm_compute. exact I.
  - rewrite Hlines. reflexivity.
Defined.

Lemma applyCurried_outside_witness :
  TS.applyCurried (@OperatorTypes.genCurriedType sampleCommon sampleOptions 0) 3
    = Some "ArithmeticError".
Proof.
  apply (@OperatorTypesLookup.applyCurried_outside sampleCommon sampleOptions 0 3).
  - exists 0. split; apply (bool_decide_unpack _); vm_compute; exact I.
  - apply (bool_decide_unpack _). vm_compute. exact I.
Defined.

Lemma applyCurried_sound_witness :
  1 ∈ sampleExponents ∧ 2 = 1 + 1 ∧ 2 ∈ sampleExponents.
Proof.
  apply (@OperatorTypesLookup.applyCurried_sound sampleCommon sampleOptions 1 1 2).
  reflexivity.
Defined.

Lemma applyCurried_symmetric_witness :
  TS.applyCurried (@OperatorTypes.genCurriedType sampleCommon sampleOptions (-1)) 2 =
  TS.applyCurried (@OperatorTypes.genCurriedType sampleCommon sampleOptions 2) (-1).
Proof.
  apply (@OperatorTypesLookup.applyCurried_symmetric sampleCommon sampleOptions (-1) 2).
  - exists 0. split; apply (bool_decide_unpack _); vm_compute; exact I.
  - exists 0. split; apply (bool_decide_unpack _); vm_compute; exact I.
  - apply (bool_decide_unpack _). vm_compute. exact I.
  - apply (bool_decide_unpack _). vm_compute. exact I.
  - reflexivity.
Defined.

(** *** The second generator *)

Module InlineOperatorTypesLookup.
Import InlineOperatorTypes.

Section Facts.
Context `{Common}.
Variable spec : IOperatorSpec.

Lemma applyInline_any (exponents : list Z) (left n : Z) :
  TS.applyInline (genCurriedType spec exponents left) n =
  Some (if bool_decide (n ∈ exponents ∧ isExponent (compute spec left n) spec)
        then pretty (compute spec left n) else "never").
Proof.
  unfold genCurriedType.
  rewrite InlineOperatorTypesFacts.inline_genCurriedType_loop.
  rewrite <- app_assoc, <- app_comm_cons, !fmap_cons. cbn [app TS.applyInline].
  apply InlineOperatorTypesFacts.evalChain_inline.
Qed.

(** X12: on a literal that is not one of the exponents the parenthesised
    lookup falls through to [never]. *)
Theorem applyInline_outside (exponents : list Z) (left n : Z) :
  n ∉ exponents →
  TS.applyInline (genCurriedType spec exponents left) n = Some "never".
Proof.
  intros Hn. rewrite applyInline_any.
  rewrite bool_decide_eq_false_2; [done|]. by intros [? _].
Qed.

(** X13: a number that the parenthesised lookup of [left] gives for [n] is
    the result of [compute] on [left] and [n], with [n] among the exponents
    and the result accepted by [isExponent]. *)
Theorem applyInline_sound (exponents : list Z) (left n z : Z) :
  TS.applyInline (genCurriedType spec exponents left) n = Some (pretty z) →
  n ∈ exponents ∧ z = compute spec left n ∧ isExponent z spec = true.
Proof.
  rewrite applyInline_any. case_bool_decide as Hin; intros [= Heq].
  - apply (inj pretty) in Heq. subst z. destruct Hin as [? Hz].
    split_and!; [done..|]. by apply Is_true_true.
  - symmetry in Heq. by apply pretty_Z_not_never in Heq.
Qed.

Lemma inline_genUncurriedType_loop (exponents xs : list Z) (acc : list string) (first : bool) :
  (foldl (genUncurriedType_step spec exponents) (acc, first) xs).1 =
  acc ++ concat (imap (λ i, inlineBlock spec exponents
                              (first && bool_decide (i = 0%nat))) xs).
Proof.
  revert acc first. induction xs as [|x xs IH]; intros acc first; simpl.
  - by rewrite app_nil_r.
  - rewrite andb_true_r.
    assert (genUncurriedType_step spec exponents (acc, first) x =
            (acc ++ inlineBlock spec exponents first x, false)) as ->.
    { unfold genUncurriedType_step, inlineBlock. simpl.
      by destruct (specialCases spec !! x). }
    rewrite IH, <- app_assoc. do 3 f_equal.
    apply imap_ext. intros i y _. simpl. by rewrite andb_false_r.
Qed.

(** X14: in the uncurried type of the second generator a left exponent with
    a special case adds one line, its test followed by the special-case
    expression, and no lookup; a left exponent without one adds the line of
    its test followed by the lines of its parenthesised lookup.  Only the
    first test carries [=]; the type closes with [: never;]. *)
Theorem genUncurriedType_blocks (exponents : list Z) :
  genUncurriedType spec exponents =
    ["export type " +:+
       genUncurriedTypeName spec "L extends Exponent" "R extends Exponent"] ++
    concat (imap (λ i left,
      let prefix :=
        indent ((if bool_decide (i = 0%nat) then "=" else ":") +:+
                " L extends " +:+ pretty left +:+ " ?") in
      match specialCases spec !! left with
      | Some special => [prefix +:+ " " +:+ special]
      | None => prefix :: genCurriedType spec exponents left
      end) exponents) ++
    ["    : never;"; ""].
Proof.
  unfold genUncurriedType. rewrite inline_genUncurriedType_loop.
  rewrite <- !app_assoc. reflexivity.
Qed.

End Facts.
End InlineOperatorTypesLookup.

Lemma applyInline_outside_witness :
  TS.applyInline
    (@InlineOperatorTypes.genCurriedType sampleInlineCommon sampleSpec sampleExponents 0) 3
    = Some "never".
Proof.
  apply (@InlineOperatorTypesLookup.applyInline_outside
           sampleInlineCommon sampleSpec sampleExponents 0 3).
  apply (bool_decide_unpack _). vm_compute. exact I.
Defined.

Lemma applyInline_sound_witness :
  -1 ∈ sampleExponents ∧ 1 = 2 + -1 ∧
  @InlineOperatorTypes.isExponent sampleInlineCommon 1 sampleSpec = true.
Proof.
  apply (@InlineOperatorTypesLookup.applyInline_sound
           sampleInlineCommon sampleSpec sampleExponents 2 (-1) 1).
  reflexivity.
Defined.

(** *** The two generators side by side *)


